(** * rename_project_references: recursive in-place substring substitution

    A shallow embedding of [src/main.py].  The script walks a directory tree
    with [Path.rglob('*')], and for every regular file reads its text,
    tests [old_str in content], replaces with [content.replace(old_str,
    new_str)] and writes the result back, catching every exception of the
    read and of the write.

    - Text is a list of characters; [str_in] and [str_replace] model Python's
      [in] and [str.replace].
    - The file system is a tree of named entries; each regular file carries
      its content and the faults the operating system answers with when it
      is read or written.
    - Effects (file system, console output, file accesses) are threaded
      through a state-and-exception monad, so that [try]/[except] is visible
      in the model. *)

From Stdlib Require Import String Ascii List Bool Arith Lia.
Import ListNotations.


(* ===================================================================== *)
(** ** Text and the two string primitives                                *)
(* ===================================================================== *)

Module Text.

Definition text := list ascii.

Definition of_string (s : string) : text := list_ascii_of_string s.

Definition ascii_eqb (a b : ascii) : bool := Ascii.eqb a b.

(** [c.startswith(p)] *)
Fixpoint starts_with (p c : text) : bool :=
  match p, c with
  | [], _ => true
  | _ :: _, [] => false
  | a :: p', b :: c' => ascii_eqb a b && starts_with p' c'
  end.

(** [old in content]: some suffix of the content starts with [old]. *)
Fixpoint str_in (old c : text) : bool :=
  starts_with old c ||
  match c with
  | [] => false
  | _ :: c' => str_in old c'
  end.

(** [str.replace] with an empty pattern: the replacement is laid down once,
    then after every character of the subject. *)
Definition interleave (new c : text) : text :=
  new ++ flat_map (fun x => x :: new) c.

(** [str.replace] with a non-empty pattern: scan from the left; at a match
    emit [new] and resume after the matched occurrence, otherwise copy one
    character.  [fuel] bounds the number of scan steps. *)
Fixpoint replace_scan (fuel : nat) (old new c : text) : text :=
  match fuel with
  | O => c
  | S k =>
      if starts_with old c
      then new ++ replace_scan k old new (skipn (length old) c)
      else match c with
           | [] => []
           | x :: c' => x :: replace_scan k old new c'
           end
  end.

(** [content.replace(old, new)] *)
Definition str_replace (old new c : text) : text :=
  match old with
  | [] => interleave new c
  | _ :: _ => replace_scan (length c) old new c
  end.


End Text.

Import Text.

(** The configuration constants of the script. *)
Definition TARGET_DIRECTORY : string := "Dit-Dah-Dash".
Definition OLD_STRING : text := of_string "morse_master".
Definition NEW_STRING : text := of_string "Dit-Dah-Dash".


(* ===================================================================== *)
(** ** Exceptions                                                        *)
(* ===================================================================== *)

(** The failures [read_text] and [write_text] answer with.  All of them are
    subclasses of Python's [Exception]. *)
Inductive exn : Type :=
| UnicodeDecodeError      (* the bytes do not decode under the encoding *)
| OSError                 (* missing file, permission, I/O fault, disk full *)
| OtherException.         (* any other [Exception], e.g. an encoding error *)

(** The classes named in the [except] clauses of the script. *)
Inductive exn_class : Type :=
| CUnicodeDecodeError
| COSError
| CException.

Definition isinstance (e : exn) (c : exn_class) : bool :=
  match c, e with
  | CException, _ => true
  | CUnicodeDecodeError, UnicodeDecodeError => true
  | COSError, OSError => true
  | _, _ => false
  end.

(* ===================================================================== *)
(** ** The file system                                                   *)
(* ===================================================================== *)

Module FS.

(** What is stored in a regular file, seen through the configured encoding:
    either the bytes decode to a text, or they do not. *)
Inductive fdata : Type :=
| Decoded (s : text)
| Undecodable (bytes : list ascii).

(** A failing write: the exception raised, and what the file holds
    afterwards when the failure struck after the file was opened (and so
    truncated); [None] when the file was not touched. *)
Record wfailure : Type := mk_wfailure {
  wexn : exn;
  wleft : option fdata
}.

(** A regular file: its data and the answers of the operating system.
    [rfault] is the exception opening or reading it raises, if any;
    [wfault] describes how writing it fails, if it does. *)
Record file : Type := mk_file {
  data : fdata;
  rfault : option exn;
  wfault : option wfailure
}.

(** A directory entry is a regular file, a directory with its named entries
    in the order the operating system lists them, or something else
    (socket, device, dangling link). *)
#[warnings="-register-all"]
Inductive node : Type :=
| File (f : file)
| Dir (entries : list (string * node))
| Special.

(** A path is the list of its components below the working directory. *)
Definition path := list string.

Fixpoint find_entry (name : string) (es : list (string * node)) : option node :=
  match es with
  | [] => None
  | (n, child) :: es' =>
      if String.eqb name n then Some child else find_entry name es'
  end.

Fixpoint lookup (n : node) (p : path) : option node :=
  match p with
  | [] => Some n
  | name :: p' =>
      match n with
      | Dir es =>
          match find_entry name es with
          | Some child => lookup child p'
          | None => None
          end
      | _ => None
      end
  end.

Fixpoint map_entry (name : string) (g : node -> node)
         (es : list (string * node)) : list (string * node) :=
  match es with
  | [] => []
  | (n, child) :: es' =>
      if String.eqb name n then (n, g child) :: es'
      else (n, child) :: map_entry name g es'
  end.

(** Replace the regular file at [p] by [f]; anything else is left as it is. *)
Fixpoint store (n : node) (p : path) (f : file) : node :=
  match p with
  | [] => match n with File _ => File f | _ => n end
  | name :: p' =>
      match n with
      | Dir es => Dir (map_entry name (fun child => store child p' f) es)
      | _ => n
      end
  end.

Definition is_dir (fs : node) (p : path) : bool :=
  match lookup fs p with
  | Some (Dir _) => true
  | _ => false
  end.

Definition is_file (fs : node) (p : path) : bool :=
  match lookup fs p with
  | Some (File _) => true
  | _ => false
  end.

(** The regular file stored at a path, if there is one. *)
Definition file_at (fs : node) (p : path) : option file :=
  match lookup fs p with
  | Some (File f) => Some f
  | _ => None
  end.

(** [Path.rglob('*')] below the directory [n] found at [base]: every entry
    of the directory, then the same for each of its sub-directories in turn.
    Neither [base] itself nor anything outside a directory is listed. *)
Fixpoint walk (base : path) (n : node) : list path :=
  match n with
  | Dir es =>
      map (fun e => base ++ [fst e]) es ++
      flat_map (fun e => walk (base ++ [fst e]) (snd e)) es
  | _ => []
  end.

Definition rglob (fs : node) (root : path) : list path :=
  match lookup fs root with
  | Some n => walk root n
  | None => []
  end.




(** The tree with the content and the faults of every file forgotten:
    names, nesting and listing order only. *)
Fixpoint shape (n : node) : node :=
  match n with
  | File _ => File (mk_file (Decoded []) None None)
  | Dir es => Dir (map (fun e => (fst e, shape (snd e))) es)
  | Special => Special
  end.


End FS.

Import FS.

(* ===================================================================== *)
(** ** Effects: a state-and-exception monad                              *)
(* ===================================================================== *)

Inductive stream : Type := Stdout | Stderr.

(** The lines the script prints, one constructor per [print] call. *)
Inductive message : Type :=
| MsgUpdating (p : path)
| MsgWriteError (p : path) (e : exn)
| MsgWriteUnexpected (p : path) (e : exn)
| MsgSkipping (p : path)
| MsgReadError (p : path) (e : exn)
| MsgReadUnexpected (p : path) (e : exn)
| MsgTargetNotFound (target_dir : path)
| MsgStarting (root_path : path)
| MsgChecking (p : path)
| MsgComplete
| MsgFilesChecked (n : nat)
| MsgFilesUpdated (n : nat).

(** What the run does to its environment, in order. *)
Inductive event : Type :=
| EvPrint (s : stream) (m : message)
| EvRead (p : path)
| EvWrite (p : path) (s : text).

Record world : Type := mk_world {
  fs : node;
  trace : list event
}.

Inductive result (A : Type) : Type :=
| Ok (a : A)
| Raise (e : exn).

Arguments Ok {A} a.
Arguments Raise {A} e.

Definition M (A : Type) : Type := world -> result A * world.

Definition ret {A} (a : A) : M A := fun w => (Ok a, w).

Definition raise {A} (e : exn) : M A := fun w => (Raise e, w).

Definition bind {A B} (m : M A) (k : A -> M B) : M B :=
  fun w =>
    match m w with
    | (Ok a, w') => k a w'
    | (Raise e, w') => (Raise e, w')
    end.

Notation "x <- m ;; k" := (bind m (fun x => k))
  (at level 61, m at next level, right associativity).
Notation "m ;;; k" := (bind m (fun _ => k))
  (at level 61, right associativity).

(** The first [except] clause whose class the exception belongs to. *)
Fixpoint dispatch {A} (e : exn) (handlers : list (exn_class * (exn -> M A)))
  : M A :=
  match handlers with
  | [] => raise e
  | (c, h) :: rest => if isinstance e c then h e else dispatch e rest
  end.

(** [try: body; except c1 as e: h1 e; except c2 as e: h2 e; ...] *)
Definition try_except {A} (body : M A)
           (handlers : list (exn_class * (exn -> M A))) : M A :=
  fun w =>
    match body w with
    | (Ok a, w') => (Ok a, w')
    | (Raise e, w') => dispatch e handlers w'
    end.

Definition emit (ev : event) : M unit :=
  fun w => (Ok tt, mk_world (fs w) (trace w ++ [ev])).

Definition print (s : stream) (m : message) : M unit := emit (EvPrint s m).

Definition get_fs : M node := fun w => (Ok (fs w), w).

Definition put_fs (t : node) : M unit :=
  fun w => (Ok tt, mk_world t (trace w)).

(** [file_path.read_text(encoding=encoding)].  Anything that is not a
    regular file cannot be opened for reading. *)
Definition read_text (file_path : path) : M text :=
  emit (EvRead file_path) ;;;
  t <- get_fs ;;
  match lookup t file_path with
  | Some (File f) =>
      match rfault f with
      | Some e => raise e
      | None =>
          match data f with
          | Decoded s => ret s
          | Undecodable _ => raise UnicodeDecodeError
          end
      end
  | _ => raise OSError
  end.

(** [file_path.write_text(s, encoding=encoding)].  The script writes only to
    a path it has just read, so only existing regular files are opened. *)
Definition write_text (file_path : path) (s : text) : M unit :=
  emit (EvWrite file_path s) ;;;
  t <- get_fs ;;
  match lookup t file_path with
  | Some (File f) =>
      match wfault f with
      | None =>
          put_fs (store t file_path (mk_file (Decoded s) (rfault f) (wfault f)))
      | Some wf =>
          match wleft wf with
          | Some d =>
              put_fs (store t file_path (mk_file d (rfault f) (wfault f)))
          | None => ret tt
          end ;;;
          raise (wexn wf)
      end
  | _ => raise OSError
  end.

(* ===================================================================== *)
(** ** The script                                                        *)
(* ===================================================================== *)

(** [update_file_content(file_path, old_str, new_str, encoding)].  The
    encoding is fixed for the run; it is what decides between [Decoded] and
    [Undecodable] data. *)
Definition update_file_content (file_path : path) (old_str new_str : text)
  : M bool :=
  try_except
    (content <- read_text file_path ;;
     if str_in old_str content then
       print Stdout (MsgUpdating file_path) ;;;
       let new_content := str_replace old_str new_str content in
       try_except
         (write_text file_path new_content ;;;
          ret true)
         [ (COSError, fun write_err =>
              print Stderr (MsgWriteError file_path write_err) ;;;
              ret false);
           (CException, fun e =>
              print Stderr (MsgWriteUnexpected file_path e) ;;;
              ret false) ]
     else
       ret false)
    [ (CUnicodeDecodeError, fun _ =>
         print Stdout (MsgSkipping file_path) ;;;
         ret false);
      (COSError, fun read_err =>
         print Stderr (MsgReadError file_path read_err) ;;;
         ret false);
      (CException, fun e =>
         print Stderr (MsgReadUnexpected file_path e) ;;;
         ret false) ].

(** The two counters of [process_directory]. *)
Record counters : Type := mk_counters {
  files_processed : nat;
  files_updated : nat
}.

(** One iteration of [for item_path in root_path.rglob('*')]. *)
Definition visit (old_str new_str : text) (item_path : path) (c : counters)
  : M counters :=
  t <- get_fs ;;
  if is_file t item_path then
    let c1 := mk_counters (files_processed c + 1) (files_updated c) in
    print Stdout (MsgChecking item_path) ;;;
    updated <- update_file_content item_path old_str new_str ;;
    if updated
    then ret (mk_counters (files_processed c1) (files_updated c1 + 1))
    else ret c1
  else
    ret c.

(** The [for] loop over the paths the traversal yields. *)
Fixpoint scan (old_str new_str : text) (items : list path) (c : counters)
  : M counters :=
  match items with
  | [] => ret c
  | item_path :: rest =>
      c' <- visit old_str new_str item_path c ;;
      scan old_str new_str rest c'
  end.

(** [process_directory(target_dir, old_str, new_str, encoding)].  The
    traversal is lazy in the script; the loop body never adds, removes or
    renames an entry, so the paths are those of the tree at the start. *)
Definition process_directory (target_dir : path) (old_str new_str : text)
  : M unit :=
  let root_path := target_dir in
  t <- get_fs ;;
  if negb (is_dir t root_path) then
    print Stderr (MsgTargetNotFound target_dir) ;;;
    ret tt
  else
    print Stdout (MsgStarting root_path) ;;;
    c <- scan old_str new_str (rglob t root_path) (mk_counters 0 0) ;;
    print Stdout MsgComplete ;;;
    print Stdout (MsgFilesChecked (files_processed c)) ;;;
    print Stdout (MsgFilesUpdated (files_updated c)).

(** [process_directory(TARGET_DIRECTORY, OLD_STRING, NEW_STRING, ...)] *)
Definition main : M unit :=
  process_directory [TARGET_DIRECTORY] OLD_STRING NEW_STRING.
(* ===================================================================== *)
(** ** Vocabulary for the statements                                     *)
(* ===================================================================== *)

(** What [read_text] answers on a file system, as a value. *)
Definition read_outcome (t : node) (p : path) : result text :=
  match lookup t p with
  | Some (File f) =>
      match rfault f with
      | Some e => Raise e
      | None =>
          match data f with
          | Decoded s => Ok s
          | Undecodable _ => Raise UnicodeDecodeError
          end
      end
  | _ => Raise OSError
  end.

(** The line printed by the [except] clause that handles a failed read. *)
Definition read_report (p : path) (e : exn) : event :=
  if isinstance e CUnicodeDecodeError then EvPrint Stdout (MsgSkipping p)
  else if isinstance e COSError then EvPrint Stderr (MsgReadError p e)
  else EvPrint Stderr (MsgReadUnexpected p e).

(** The line printed by the [except] clause that handles a failed write. *)
Definition write_report (p : path) (e : exn) : event :=
  if isinstance e COSError then EvPrint Stderr (MsgWriteError p e)
  else EvPrint Stderr (MsgWriteUnexpected p e).

Definition is_write (ev : event) : bool :=
  match ev with EvWrite _ _ => true | _ => false end.

Definition is_read (ev : event) : bool :=
  match ev with EvRead _ => true | _ => false end.

(** A line of the final summary. *)
Definition is_counter (ev : event) : bool :=
  match ev with
  | EvPrint _ (MsgFilesChecked _) => true
  | EvPrint _ (MsgFilesUpdated _) => true
  | _ => false
  end.

Definition is_config_error (ev : event) : bool :=
  match ev with EvPrint _ (MsgTargetNotFound _) => true | _ => false end.

(** The paths announced by a "Checking" line, in order. *)
Definition checked_paths (evs : list event) : list path :=
  flat_map (fun ev => match ev with
                      | EvPrint _ (MsgChecking p) => [p]
                      | _ => []
                      end) evs.

(** The paths handed to [read_text], in order. *)
Definition read_paths (evs : list event) : list path :=
  flat_map (fun ev => match ev with EvRead p => [p] | _ => [] end) evs.

(** The three lines that close a run. *)
Definition summary (c : counters) : list event :=
  [EvPrint Stdout MsgComplete;
   EvPrint Stdout (MsgFilesChecked (files_processed c));
   EvPrint Stdout (MsgFilesUpdated (files_updated c))].

(** The content stored at a path, if a regular file is there. *)
Definition content_at (t : node) (p : path) : option fdata :=
  option_map data (file_at t p).


(** The state in which the loop of [process_directory] starts. *)
Definition started (root_path : path) (w : world) : world :=
  mk_world (fs w) (trace w ++ [EvPrint Stdout (MsgStarting root_path)]).

(** The paths handed to [write_text], in order. *)
Definition write_paths (evs : list event) : list path :=
  flat_map (fun ev => match ev with EvWrite p _ => [p] | _ => [] end) evs.

(** A line printed by one of the [except] clauses around the read. *)
Definition is_read_report (ev : event) : bool :=
  match ev with
  | EvPrint _ (MsgSkipping _) => true
  | EvPrint _ (MsgReadError _ _) => true
  | EvPrint _ (MsgReadUnexpected _ _) => true
  | _ => false
  end.

(** A line printed by one of the [except] clauses around the write. *)
Definition is_write_report (ev : event) : bool :=
  match ev with
  | EvPrint _ (MsgWriteError _ _) => true
  | EvPrint _ (MsgWriteUnexpected _ _) => true
  | _ => false
  end.

Definition is_stderr (ev : event) : bool :=
  match ev with EvPrint Stderr _ => true | _ => false end.

Definition is_updating (ev : event) : bool :=
  match ev with EvPrint _ (MsgUpdating _) => true | _ => false end.

(** The file can be read, decodes, and its content holds the pattern: the
    call will attempt a write. *)
Definition matches (old_str : text) (f : file) : bool :=
  match rfault f, data f with
  | None, Decoded s => str_in old_str s
  | _, _ => false
  end.

(** The file matches and its write-back goes through. *)
Definition updatable (old_str : text) (f : file) : bool :=
  matches old_str f &&
  match wfault f with None => true | Some _ => false end.

Definition matches_at (old_str : text) (t : node) (p : path) : bool :=
  match file_at t p with
  | Some f => matches old_str f
  | None => false
  end.

Definition updatable_at (old_str : text) (t : node) (p : path) : bool :=
  match file_at t p with
  | Some f => updatable old_str f
  | None => false
  end.

(** What a call leaves of a file. *)
Definition after_update (old_str new_str : text) (f : file) : file :=
  match rfault f, data f with
  | None, Decoded s =>
      if str_in old_str s then
        match wfault f with
        | None => mk_file (Decoded (str_replace old_str new_str s)) None None
        | Some wf =>
            match wleft wf with
            | Some d => mk_file d None (Some wf)
            | None => f
            end
        end
      else f
  | _, _ => f
  end.



(* ===================================================================== *)
(** ** Sample inputs                                                     *)
(* ===================================================================== *)

Module Sample.

(** A readable, writable text file. *)
Definition plain (s : string) : node :=
  File (mk_file (Decoded (of_string s)) None None).

(** A text file that cannot be opened for writing. *)
Definition read_only (s : string) : node :=
  File (mk_file (Decoded (of_string s)) None
                (Some (mk_wfailure OSError None))).

(** A file whose bytes do not decode. *)
Definition binary : node :=
  File (mk_file (Undecodable ["255"%char; "254"%char]) None None).

(** A file that cannot be opened for reading. *)
Definition unreadable : node :=
  File (mk_file (Decoded (of_string "morse_master")) (Some OSError) None).

(** The project directory of the spec's scenarios, with a nested
    directory, a socket and two files the operating system protects. *)
Definition project : node :=
  Dir [ ("a.txt"%string, plain "morse_master rocks");
        ("b.bin"%string, binary);
        ("docs"%string,
           Dir [ ("paths.md"%string, plain "morse_master/morse_master");
                 ("deep"%string, Dir [ ("notes"%string, plain "nothing") ]) ]);
        ("sock"%string, Special);
        ("locked.txt"%string, read_only "morse_master");
        ("secret"%string, unreadable) ].

Definition disk : node := Dir [ (TARGET_DIRECTORY, project) ].

Definition start : world := mk_world disk [].

Definition a_txt : path := [TARGET_DIRECTORY; "a.txt"%string].
Definition b_bin : path := [TARGET_DIRECTORY; "b.bin"%string].
Definition locked_txt : path := [TARGET_DIRECTORY; "locked.txt"%string].
Definition secret : path := [TARGET_DIRECTORY; "secret"%string].





End Sample.

(* ===================================================================== *)
(** ** Facts about the string primitives                                 *)
(* ===================================================================== *)

Section TextFacts.

Lemma app_same_length {A} (a b x y : list A) :
  length a = length b -> a ++ x = b ++ y -> a = b /\ x = y.
Proof.
  revert b. induction a as [|h a IH]; intros [|k b] Hl H; simpl in *;
    try discriminate.
  - split; [reflexivity|exact H].
  - injection H as -> H. injection Hl as Hl.
    destruct (IH b Hl H) as [-> ->]. split; reflexivity.
Qed.

Lemma ascii_eqb_true (a b : ascii) : ascii_eqb a b = true <-> a = b.
Proof. unfold ascii_eqb. apply Ascii.eqb_eq. Qed.

Lemma ascii_eqb_refl (a : ascii) : ascii_eqb a a = true.
Proof. apply ascii_eqb_true. reflexivity. Qed.

Lemma starts_with_app (p t : text) : starts_with p (p ++ t) = true.
Proof.
  induction p as [|a p IH]; simpl; [reflexivity|].
  rewrite ascii_eqb_refl. exact IH.
Qed.

Lemma starts_with_split (p c : text) :
  starts_with p c = true -> c = p ++ skipn (length p) c.
Proof.
  revert c. induction p as [|a p IH]; intros c H; simpl in *; [reflexivity|].
  destruct c as [|b c]; [discriminate|].
  apply andb_true_iff in H. destruct H as [Hab Hp].
  apply ascii_eqb_true in Hab. subst b.
  simpl. f_equal. apply IH. exact Hp.
Qed.

Lemma starts_with_iff (p c : text) :
  starts_with p c = true <-> exists t, c = p ++ t.
Proof.
  split.
  - intros H. exists (skipn (length p) c). apply starts_with_split. exact H.
  - intros [t ->]. apply starts_with_app.
Qed.

Lemma starts_with_length (p c : text) :
  starts_with p c = true -> length p <= length c.
Proof.
  intros H. apply starts_with_iff in H. destruct H as [t ->].
  rewrite length_app. lia.
Qed.

Lemma str_in_head (old c : text) :
  starts_with old c = true -> str_in old c = true.
Proof. intros H. destruct c; simpl; rewrite H; reflexivity. Qed.

(** [old in c] holds exactly when [c] splits around an occurrence. *)
Lemma str_in_iff (old c : text) :
  str_in old c = true <-> exists pre post, c = pre ++ old ++ post.
Proof.
  split.
  - induction c as [|x c IH]; simpl; intros H.
    + rewrite orb_false_r in H. apply starts_with_iff in H.
      destruct H as [t Ht]. exists [], t. exact Ht.
    + apply orb_true_iff in H. destruct H as [H|H].
      * apply starts_with_iff in H. destruct H as [t Ht].
        exists [], t. exact Ht.
      * destruct (IH H) as (pre & post & ->).
        exists (x :: pre), post. reflexivity.
  - intros (pre & post & ->).
    induction pre as [|x pre IH]; simpl.
    + apply str_in_head, starts_with_app.
    + rewrite IH. apply orb_true_r.
Qed.

Lemma str_in_empty (c : text) : str_in [] c = true.
Proof. destruct c; reflexivity. Qed.

Lemma str_in_cons_false (old : text) (x : ascii) (c : text) :
  str_in old (x :: c) = false ->
  starts_with old (x :: c) = false /\ str_in old c = false.
Proof. simpl. intros H. apply orb_false_iff in H. exact H. Qed.

(** *** The scan does not depend on spare fuel. *)

Lemma replace_scan_fuel (old new : text) :
  old <> [] ->
  forall n m c, length c <= n -> length c <= m ->
    replace_scan n old new c = replace_scan m old new c.
Proof.
  intros Hne. induction n as [|n IH]; intros m c Hn Hm.
  - destruct c; [|simpl in Hn; lia].
    destruct m; simpl; [reflexivity|].
    destruct old; [contradiction|reflexivity].
  - destruct m as [|m].
    + destruct c; [|simpl in Hm; lia].
      simpl. destruct old; [contradiction|reflexivity].
    + simpl. destruct (starts_with old c) eqn:E.
      * f_equal. pose proof (starts_with_length _ _ E) as Hl.
        assert (length old <> 0) by (destruct old; simpl; [contradiction|lia]).
        apply IH; rewrite length_skipn; lia.
      * destruct c as [|x c]; [reflexivity|].
        simpl in Hn, Hm. f_equal. apply IH; lia.
Qed.

(** The defining equation of [str.replace] for a non-empty pattern. *)
Lemma str_replace_unfold (old new c : text) :
  old <> [] ->
  str_replace old new c =
    if starts_with old c
    then new ++ str_replace old new (skipn (length old) c)
    else match c with
         | [] => []
         | x :: c' => x :: str_replace old new c'
         end.
Proof.
  intros Hne. unfold str_replace.
  destruct old as [|o old']; [contradiction|].
  set (old := o :: old') in *.
  destruct c as [|x c].
  - reflexivity.
  - cbn [length replace_scan].
    destruct (starts_with old (x :: c)) eqn:E.
    + f_equal. pose proof (starts_with_length _ _ E) as Hl.
      apply replace_scan_fuel; [exact Hne| |lia].
      rewrite length_skipn. simpl in *. lia.
    + reflexivity.
Qed.

Lemma str_replace_nil (old new : text) :
  old <> [] -> str_replace old new [] = [].
Proof. intros H. destruct old; [contradiction|reflexivity]. Qed.

(** Induction along the scan: a property that follows the two moves of
    [str.replace] holds of every subject. *)
Lemma scan_ind (old : text) (P : text -> Prop) :
  old <> [] ->
  P [] ->
  (forall c, starts_with old c = true ->
             P (skipn (length old) c) -> P c) ->
  (forall x c, starts_with old (x :: c) = false -> P c -> P (x :: c)) ->
  forall c, P c.
Proof.
  intros Hne Hnil Hocc Hcopy c.
  remember (length c) as n eqn:Hn.
  revert c Hn. induction n as [n IH] using lt_wf_ind. intros c Hn.
  destruct (starts_with old c) eqn:E.
  - apply Hocc; [exact E|].
    pose proof (starts_with_length _ _ E) as Hl.
    assert (length old <> 0) by (destruct old; simpl; [contradiction|lia]).
    apply (IH (length (skipn (length old) c))); [|reflexivity].
    rewrite length_skipn. lia.
  - destruct c as [|x c]; [exact Hnil|].
    apply Hcopy; [exact E|].
    apply (IH (length c)); [simpl in Hn; lia|reflexivity].
Qed.


(** *** Where the pattern is absent nothing is replaced. *)

Lemma str_in_false_nonempty (old c : text) :
  str_in old c = false -> old <> [].
Proof. intros H ->. rewrite str_in_empty in H. discriminate. Qed.

Lemma str_replace_absent (old new c : text) :
  str_in old c = false -> str_replace old new c = c.
Proof.
  intros H. pose proof (str_in_false_nonempty _ _ H) as Hne.
  induction c as [|x c IH].
  - apply str_replace_nil. exact Hne.
  - apply str_in_cons_false in H. destruct H as [Hh Ht].
    rewrite (str_replace_unfold old new (x :: c) Hne), Hh.
    f_equal. apply IH. exact Ht.
Qed.

(** *** Where the pattern is present and differs from its replacement,
        the content changes. *)

Lemma interleave_length (new c : text) :
  length (interleave new c) = length c + (length c + 1) * length new.
Proof.
  unfold interleave. rewrite length_app.
  induction c as [|x c IH]; simpl; [lia|].
  rewrite length_app. lia.
Qed.

Lemma str_replace_length_bounds (old new c : text) :
  old <> [] ->
  (length new <= length old -> length (str_replace old new c) <= length c) /\
  (length old <= length new -> length c <= length (str_replace old new c)).
Proof.
  intros Hne. revert c.
  refine (scan_ind old _ Hne _ _ _).
  - rewrite (str_replace_nil old new Hne). simpl. lia.
  - intros c E [IH1 IH2].
    rewrite (str_replace_unfold old new c Hne), E, length_app.
    pose proof (starts_with_length _ _ E) as Hl.
    rewrite length_skipn in IH1, IH2. lia.
  - intros x c E [IH1 IH2].
    rewrite (str_replace_unfold old new (x :: c) Hne), E. simpl. lia.
Qed.

Lemma str_replace_fixed_absent (old new c : text) :
  old <> [] -> old <> new ->
  str_replace old new c = c -> str_in old c = false.
Proof.
  intros Hne Hdiff. revert c.
  refine (scan_ind old _ Hne _ _ _).
  - intros _. destruct old; [contradiction|reflexivity].
  - intros c E _ Heq. exfalso.
    rewrite (str_replace_unfold old new c Hne), E in Heq.
    pose proof (starts_with_split _ _ E) as Hc.
    pose proof (starts_with_length _ _ E) as Hl.
    destruct (str_replace_length_bounds old new (skipn (length old) c) Hne)
      as [B1 B2].
    rewrite length_skipn in B1, B2.
    assert (Hlen : length (new ++ str_replace old new (skipn (length old) c))
                   = length c) by (rewrite Heq; reflexivity).
    rewrite length_app in Hlen.
    assert (Hsame : length new = length old) by lia.
    rewrite Hc in Heq at 2.
    apply (app_same_length _ _ _ _ Hsame) in Heq.
    destruct Heq as [Heq _]. apply Hdiff. symmetry. exact Heq.
  - intros x c E IH Heq.
    rewrite (str_replace_unfold old new (x :: c) Hne), E in Heq.
    injection Heq as Heq. simpl. rewrite E. simpl. apply IH. exact Heq.
Qed.

Lemma str_replace_changes (old new c : text) :
  old <> new -> str_in old c = true -> str_replace old new c <> c.
Proof.
  intros Hdiff Hin Heq.
  destruct old as [|o old'].
  - unfold str_replace in Heq.
    assert (Hl : length (interleave new c) = length c) by (rewrite Heq; reflexivity).
    rewrite interleave_length in Hl.
    destruct new as [|n new']; [contradiction|]. simpl in Hl. lia.
  - assert (Hne : o :: old' <> []) by discriminate.
    rewrite (str_replace_fixed_absent _ _ _ Hne Hdiff Heq) in Hin. discriminate.
Qed.

(** The content changes exactly when the pattern occurs in it, as long as
    the pattern and its replacement differ. *)
Lemma str_replace_changes_iff (old new c : text) :
  old <> new ->
  (str_in old c = true <-> str_replace old new c <> c).
Proof.
  intros Hdiff. split.
  - apply str_replace_changes. exact Hdiff.
  - intros H. destruct (str_in old c) eqn:E; [reflexivity|].
    exfalso. apply H. apply str_replace_absent. exact E.
Qed.

(** *** The empty pattern. *)


End TextFacts.

(* ===================================================================== *)
(** ** The scan against the spec's wording                               *)
(* ===================================================================== *)

Section Refinement.

Variables old new : text.
Hypothesis old_nonempty : old <> [].










End Refinement.

(* ===================================================================== *)
(** ** A second replacement finds nothing new                            *)
(* ===================================================================== *)

Section SecondRun.

Variables (o0 n0 : ascii) (old' new' : text).
Let old : text := o0 :: old'.
Let new : text := n0 :: new'.

Hypothesis old_head_fresh : ~ In o0 new.
Hypothesis new_head_fresh : ~ In n0 old.





End SecondRun.

(* ===================================================================== *)
(** ** Facts about the file system                                       *)
(* ===================================================================== *)

Section FSFacts.

Lemma find_entry_map_entry (name : string) (g : node -> node) es :
  find_entry name (map_entry name g es) = option_map g (find_entry name es).
Proof.
  induction es as [|[n child] es IH]; simpl; [reflexivity|].
  destruct (String.eqb name n) eqn:E; simpl; rewrite E; [reflexivity|exact IH].
Qed.

Lemma find_entry_map_entry_other (name other : string) (g : node -> node) es :
  other <> name ->
  find_entry other (map_entry name g es) = find_entry other es.
Proof.
  intros Hne. induction es as [|[n child] es IH]; simpl; [reflexivity|].
  destruct (String.eqb name n) eqn:E; simpl.
  - apply String.eqb_eq in E. subst n.
    apply String.eqb_neq in Hne. rewrite Hne. reflexivity.
  - rewrite IH. reflexivity.
Qed.





(** *** Storing a file. *)

Lemma lookup_store_same (t : node) (p : path) (f0 f : file) :
  lookup t p = Some (File f0) -> lookup (store t p f) p = Some (File f).
Proof.
  revert t. induction p as [|name p IH]; intros t H; simpl in *.
  - injection H as ->. reflexivity.
  - destruct t as [g|es|]; try discriminate.
    simpl. rewrite find_entry_map_entry.
    destruct (find_entry name es) as [child|]; [|discriminate].
    simpl. apply IH. exact H.
Qed.

Lemma file_at_store_same (t : node) (p : path) (f0 f : file) :
  file_at t p = Some f0 -> file_at (store t p f) p = Some f.
Proof.
  unfold file_at. intros H.
  destruct (lookup t p) as [[g|es|]|] eqn:E; try discriminate.
  rewrite (lookup_store_same t p g f E). reflexivity.
Qed.

Lemma file_at_store_other (t : node) (p q : path) (f : file) :
  q <> p -> file_at (store t p f) q = file_at t q.
Proof.
  unfold file_at. revert t q. induction p as [|name p IH]; intros t q Hne.
  - destruct q as [|m q]; [contradiction|].
    destruct t as [g|es|]; reflexivity.
  - destruct t as [g|es|]; try reflexivity.
    destruct q as [|m q]; [reflexivity|].
    simpl. destruct (String.eqb m name) eqn:E.
    + apply String.eqb_eq in E. subst m.
      rewrite find_entry_map_entry.
      destruct (find_entry name es) as [child|]; [|reflexivity].
      simpl. apply IH. intros ->. apply Hne. reflexivity.
    + apply String.eqb_neq in E.
      rewrite (find_entry_map_entry_other name m _ es E). reflexivity.
Qed.

Lemma shape_store (t : node) (p : path) (f : file) :
  shape (store t p f) = shape t.
Proof.
  revert t. induction p as [|name p IH]; intros t.
  - destruct t; reflexivity.
  - destruct t as [g|es|]; try reflexivity.
    simpl. f_equal.
    induction es as [|[n child] es IHes]; simpl; [reflexivity|].
    destruct (String.eqb name n); simpl.
    + rewrite IH. reflexivity.
    + rewrite IHes. reflexivity.
Qed.

(** *** What depends on the shape only. *)

Lemma find_entry_shape (name : string) es :
  find_entry name (map (fun e => (fst e, shape (snd e))) es) =
  option_map shape (find_entry name es).
Proof.
  induction es as [|[n child] es IH]; simpl; [reflexivity|].
  destruct (String.eqb name n); [reflexivity|exact IH].
Qed.

Lemma lookup_shape (t : node) (p : path) :
  lookup (shape t) p = option_map shape (lookup t p).
Proof.
  revert t. induction p as [|name p IH]; intros t; [reflexivity|].
  destruct t as [g|es|]; try reflexivity.
  simpl. rewrite find_entry_shape.
  destruct (find_entry name es) as [child|]; simpl; [apply IH|reflexivity].
Qed.

Lemma is_file_shape (t : node) (p : path) :
  is_file (shape t) p = is_file t p.
Proof.
  unfold is_file. rewrite lookup_shape.
  destruct (lookup t p) as [[g|es|]|]; reflexivity.
Qed.



End FSFacts.

(* ===================================================================== *)
(** ** Facts about the traversal                                         *)
(* ===================================================================== *)

Section WalkFacts.










End WalkFacts.

(* ===================================================================== *)
(** ** Facts about the script                                            *)
(* ===================================================================== *)

Section ScriptFacts.

Variables old_str new_str : text.

Lemma read_text_run (p : path) (w : world) :
  read_text p w =
  (read_outcome (fs w) p, mk_world (fs w) (trace w ++ [EvRead p])).
Proof.
  unfold read_text, read_outcome, bind, emit, get_fs, ret, raise. simpl.
  destruct (lookup (fs w) p) as [[f|es|]|]; try reflexivity.
  destruct (rfault f); [reflexivity|].
  destruct (data f); reflexivity.
Qed.

(** A failed read: the matching [except] clause reports it, the result is
    [False], and the file system is not touched. *)
Lemma update_read_failed (p : path) (w : world) (e : exn) :
  read_outcome (fs w) p = Raise e ->
  update_file_content p old_str new_str w =
  (Ok false, mk_world (fs w) (trace w ++ [EvRead p; read_report p e])).
Proof.
  intros H. unfold update_file_content, try_except, bind.
  rewrite read_text_run, H.
  unfold read_report. destruct e; simpl;
    unfold print, emit, bind, ret; simpl; rewrite <- app_assoc; reflexivity.
Qed.

(** The pattern does not occur: nothing is written. *)
Lemma update_absent (p : path) (w : world) (s : text) :
  read_outcome (fs w) p = Ok s ->
  str_in old_str s = false ->
  update_file_content p old_str new_str w =
  (Ok false, mk_world (fs w) (trace w ++ [EvRead p])).
Proof.
  intros H Habs. unfold update_file_content, try_except, bind.
  rewrite read_text_run, H, Habs. reflexivity.
Qed.

Lemma read_outcome_Ok (t : node) (p : path) (s : text) :
  read_outcome t p = Ok s ->
  exists f, lookup t p = Some (File f) /\ rfault f = None /\
            data f = Decoded s.
Proof.
  unfold read_outcome.
  destruct (lookup t p) as [[f|es|]|]; try discriminate.
  destruct (rfault f) eqn:Hr; [discriminate|].
  destruct (data f) eqn:Hd; [|discriminate].
  intros H. injection H as ->. exists f. repeat split; assumption.
Qed.

Lemma read_outcome_Decoded (t : node) (p : path) (f : file) (s : text) :
  lookup t p = Some (File f) -> rfault f = None -> data f = Decoded s ->
  read_outcome t p = Ok s.
Proof.
  intros Hl Hr Hd. unfold read_outcome. rewrite Hl, Hr, Hd. reflexivity.
Qed.

(** The pattern occurs and the write goes through. *)
Lemma update_written (p : path) (w : world) (f : file) (s : text) :
  lookup (fs w) p = Some (File f) ->
  rfault f = None -> data f = Decoded s ->
  str_in old_str s = true ->
  wfault f = None ->
  update_file_content p old_str new_str w =
  (Ok true,
   mk_world
     (store (fs w) p
            (mk_file (Decoded (str_replace old_str new_str s)) None None))
     (trace w ++ [EvRead p; EvPrint Stdout (MsgUpdating p);
                  EvWrite p (str_replace old_str new_str s)])).
Proof.
  intros Hl Hr Hd Hin Hw.
  pose proof (read_outcome_Decoded _ _ _ _ Hl Hr Hd) as Hread.
  unfold update_file_content, try_except, bind.
  rewrite read_text_run, Hread, Hin.
  unfold print, write_text, emit, bind, get_fs, put_fs, ret. simpl.
  rewrite Hl, Hw, Hr. simpl. rewrite <- !app_assoc. reflexivity.
Qed.

(** The pattern occurs and the write fails: the matching [except] clause
    reports it and the result is [False]. *)
Lemma update_write_failed (p : path) (w : world) (f : file) (s : text)
      (wf : wfailure) :
  lookup (fs w) p = Some (File f) ->
  rfault f = None -> data f = Decoded s ->
  str_in old_str s = true ->
  wfault f = Some wf ->
  update_file_content p old_str new_str w =
  (Ok false,
   mk_world
     (match wleft wf with
      | Some d => store (fs w) p (mk_file d None (Some wf))
      | None => fs w
      end)
     (trace w ++ [EvRead p; EvPrint Stdout (MsgUpdating p);
                  EvWrite p (str_replace old_str new_str s);
                  write_report p (wexn wf)])).
Proof.
  intros Hl Hr Hd Hin Hw.
  pose proof (read_outcome_Decoded _ _ _ _ Hl Hr Hd) as Hread.
  unfold update_file_content, try_except, bind.
  rewrite read_text_run, Hread, Hin.
  unfold print, write_text, emit, bind, get_fs, put_fs, ret, raise. simpl.
  rewrite Hl, Hw, Hr. unfold write_report.
  destruct (wleft wf); destruct (wexn wf); simpl;
    rewrite <- !app_assoc; reflexivity.
Qed.

(** Whatever the file and its faults, a call returns a boolean, keeps the
    shape of the tree, and only adds to the trace: one read of the file, no
    "Checking" line, no counter and no configuration error. *)
Lemma update_total (p : path) (w : world) :
  exists b w' evs,
    update_file_content p old_str new_str w = (Ok b, w') /\
    shape (fs w') = shape (fs w) /\
    trace w' = trace w ++ evs /\
    read_paths evs = [p] /\
    checked_paths evs = [] /\
    forallb (fun ev => negb (is_counter ev || is_config_error ev)) evs = true.
Proof.
  destruct (read_outcome (fs w) p) as [s|e] eqn:Hread.
  - destruct (str_in old_str s) eqn:Hin.
    + destruct (read_outcome_Ok _ _ _ Hread) as (f & Hl & Hr & Hd).
      destruct (wfault f) as [wf|] eqn:Hw.
      * eexists _, _, _.
        split; [apply (update_write_failed p w f s wf); assumption|].
        simpl. split; [|split; [reflexivity|]].
        -- destruct (wleft wf); [apply shape_store|reflexivity].
        -- unfold write_report. destruct (wexn wf); repeat split; reflexivity.
      * eexists _, _, _.
        split; [apply (update_written p w f s); assumption|].
        simpl. split; [apply shape_store|]. repeat split; reflexivity.
    + eexists _, _, _.
      split; [apply (update_absent p w s); assumption|].
      simpl. repeat split; reflexivity.
  - eexists _, _, _.
    split; [apply (update_read_failed p w e); assumption|].
    simpl. split; [reflexivity|]. split; [reflexivity|].
    unfold read_report. destruct e; repeat split; reflexivity.
Qed.

(** *** One iteration of the loop. *)

Lemma visit_skip (p : path) (c : counters) (w : world) :
  is_file (fs w) p = false ->
  visit old_str new_str p c w = (Ok c, w).
Proof.
  intros H. unfold visit, bind, get_fs. simpl. rewrite H. reflexivity.
Qed.

Lemma visit_file (p : path) (c : counters) (w : world) :
  is_file (fs w) p = true ->
  visit old_str new_str p c w =
  match update_file_content p old_str new_str
          (mk_world (fs w) (trace w ++ [EvPrint Stdout (MsgChecking p)])) with
  | (Ok true, w') =>
      (Ok (mk_counters (files_processed c + 1) (files_updated c + 1)), w')
  | (Ok false, w') =>
      (Ok (mk_counters (files_processed c + 1) (files_updated c)), w')
  | (Raise e, w') => (Raise e, w')
  end.
Proof.
  intros H. unfold visit, bind, get_fs, print, emit. simpl. rewrite H. simpl.
  destruct (update_file_content p old_str new_str _) as [[[|]|e] w'];
    reflexivity.
Qed.


Lemma is_file_same_shape (t1 t2 : node) (p : path) :
  shape t1 = shape t2 -> is_file t1 p = is_file t2 p.
Proof.
  intros H. rewrite <- (is_file_shape t1), <- (is_file_shape t2), H.
  reflexivity.
Qed.

Lemma visit_total (p : path) (c : counters) (w : world) :
  exists c' w' evs,
    visit old_str new_str p c w = (Ok c', w') /\
    shape (fs w') = shape (fs w) /\
    trace w' = trace w ++ evs /\
    read_paths evs = filter (is_file (fs w)) [p] /\
    checked_paths evs = filter (is_file (fs w)) [p] /\
    forallb (fun ev => negb (is_counter ev || is_config_error ev)) evs = true /\
    files_processed c' =
      files_processed c + length (filter (is_file (fs w)) [p]) /\
    files_updated c <= files_updated c' /\
    files_updated c' + files_processed c <=
      files_updated c + files_processed c'.
Proof.
  destruct (is_file (fs w) p) eqn:Hf.
  - rewrite (visit_file p c w Hf).
    destruct (update_total p
                (mk_world (fs w) (trace w ++ [EvPrint Stdout (MsgChecking p)])))
      as (b & w' & evs & Hrun & Hshape & Htrace & Hreads & Hchecked & Hquiet).
    rewrite Hrun. simpl in Hshape, Htrace.
    exists (mk_counters (files_processed c + 1)
                        (if b then files_updated c + 1 else files_updated c)),
           w', (EvPrint Stdout (MsgChecking p) :: evs).
    simpl. rewrite Hf. simpl.
    split; [destruct b; reflexivity|].
    split; [exact Hshape|].
    split; [rewrite Htrace, <- app_assoc; reflexivity|].
    split; [exact Hreads|].
    split; [unfold checked_paths in *; simpl; rewrite Hchecked; reflexivity|].
    split; [exact Hquiet|].
    destruct b; simpl; lia.
  - rewrite (visit_skip p c w Hf).
    exists c, w, []. simpl. rewrite Hf, app_nil_r. simpl.
    repeat split; lia.
Qed.

(** *** The loop. *)


Lemma filter_same_shape (t1 t2 : node) (items : list path) :
  shape t1 = shape t2 ->
  filter (is_file t1) items = filter (is_file t2) items.
Proof.
  intros H. apply filter_ext. intros q. apply is_file_same_shape. exact H.
Qed.

(** The loop never raises; it reads and announces exactly the regular files
    among its paths, in order, and counts them. *)
Lemma scan_total (items : list path) :
  forall (c : counters) (w : world),
  exists c' w' evs,
    scan old_str new_str items c w = (Ok c', w') /\
    shape (fs w') = shape (fs w) /\
    trace w' = trace w ++ evs /\
    read_paths evs = filter (is_file (fs w)) items /\
    checked_paths evs = filter (is_file (fs w)) items /\
    forallb (fun ev => negb (is_counter ev || is_config_error ev)) evs = true /\
    files_processed c' =
      files_processed c + length (filter (is_file (fs w)) items) /\
    files_updated c <= files_updated c' /\
    files_updated c' + files_processed c <=
      files_updated c + files_processed c'.
Proof.
  induction items as [|p items IH]; intros c w.
  - exists c, w, []. simpl. rewrite app_nil_r. repeat split; lia.
  - destruct (visit_total p c w)
      as (c1 & w1 & evs1 & Hrun1 & Hshape1 & Htrace1 & Hreads1 & Hchecked1
          & Hquiet1 & Hproc1 & Hmono1 & Hle1).
    destruct (IH c1 w1)
      as (c2 & w2 & evs2 & Hrun2 & Hshape2 & Htrace2 & Hreads2 & Hchecked2
          & Hquiet2 & Hproc2 & Hmono2 & Hle2).
    rewrite (filter_same_shape _ _ items Hshape1) in Hreads2, Hchecked2, Hproc2.
    exists c2, w2, (evs1 ++ evs2).
    split; [simpl; unfold bind; rewrite Hrun1; exact Hrun2|].
    split; [congruence|].
    split; [rewrite Htrace2, Htrace1, <- app_assoc; reflexivity|].
    change (p :: items) with ([p] ++ items).
    rewrite filter_app, length_app.
    split; [unfold read_paths in *; rewrite flat_map_app; congruence|].
    split; [unfold checked_paths in *; rewrite flat_map_app; congruence|].
    split; [rewrite forallb_app, Hquiet1, Hquiet2; reflexivity|].
    lia.
Qed.

(** *** The whole run. *)

Lemma process_directory_rejects (root : path) (w : world) :
  is_dir (fs w) root = false ->
  process_directory root old_str new_str w =
  (Ok tt,
   mk_world (fs w) (trace w ++ [EvPrint Stderr (MsgTargetNotFound root)])).
Proof.
  intros H. unfold process_directory, bind, get_fs. simpl. rewrite H.
  reflexivity.
Qed.

Lemma process_directory_runs (root : path) (w : world) :
  is_dir (fs w) root = true ->
  process_directory root old_str new_str w =
  match scan old_str new_str (rglob (fs w) root) (mk_counters 0 0)
             (started root w) with
  | (Ok c, w') => (Ok tt, mk_world (fs w') (trace w' ++ summary c))
  | (Raise e, w') => (Raise e, w')
  end.
Proof.
  intros H. unfold process_directory, bind, get_fs. simpl. rewrite H. simpl.
  unfold started.
  destruct (scan old_str new_str _ _ _) as [[c|e] w']; [|reflexivity].
  unfold print, emit, summary. simpl. rewrite <- !app_assoc. reflexivity.
Qed.

End ScriptFacts.

(* ===================================================================== *)
(** ** The claims                                                        *)
(* ===================================================================== *)

Lemma file_at_lookup (t : node) (p : path) (f : file) :
  lookup t p = Some (File f) -> file_at t p = Some f.
Proof. intros H. unfold file_at. rewrite H. reflexivity. Qed.

(** The scenario of the spec: [a.txt] holds "morse_master rocks" and
    [b.bin] does not decode; after one run [a.txt] holds
    "Dit-Dah-Dash rocks", [b.bin] is as before, and the summary reads
    two files checked, one updated. *)
Example scenario_two_files :
  let root := Dir [ ("a.txt"%string, Sample.plain "morse_master rocks");
                    ("b.bin"%string, Sample.binary) ] in
  let out := main (mk_world (Dir [ (TARGET_DIRECTORY, root) ]) []) in
  fst out = Ok tt /\
  content_at (fs (snd out)) Sample.a_txt
    = Some (Decoded (of_string "Dit-Dah-Dash rocks")) /\
  lookup (fs (snd out)) Sample.b_bin = Some Sample.binary /\
  skipn 8 (trace (snd out)) = summary (mk_counters 2 1).
Proof. vm_compute. repeat split; reflexivity. Qed.







(** C3: for every file whose bytes cannot be decoded,
    [update_file_content] performs no write and leaves the file system as it
    is, returns [False], and the loop goes on with the next path having
    counted the file as checked but not as updated.  When the file can be
    opened, the exception is [UnicodeDecodeError] and the file is reported
    as skipped. *)
Theorem undecodable_file_skipped (p : path) (old_str new_str : text)
        (w : world) (f : file) (bytes : list ascii)
        (rest : list path) (c : counters) :
  lookup (fs w) p = Some (File f) ->
  data f = Undecodable bytes ->
  exists e,
    read_outcome (fs w) p = Raise e /\
    (rfault f = None -> e = UnicodeDecodeError) /\
    update_file_content p old_str new_str w =
      (Ok false, mk_world (fs w) (trace w ++ [EvRead p; read_report p e])) /\
    existsb is_write [EvRead p; read_report p e] = false /\
    scan old_str new_str (p :: rest) c w =
      scan old_str new_str rest
           (mk_counters (files_processed c + 1) (files_updated c))
           (mk_world (fs w)
              (trace w ++ [EvPrint Stdout (MsgChecking p); EvRead p;
                           read_report p e])).
Proof.
  intros Hl Hd.
  assert (Hraise : exists e, read_outcome (fs w) p = Raise e /\
                             (rfault f = None -> e = UnicodeDecodeError)).
  { unfold read_outcome. rewrite Hl, Hd.
    destruct (rfault f) as [e|].
    - exists e. split; [reflexivity|discriminate].
    - exists UnicodeDecodeError. split; reflexivity. }
  destruct Hraise as (e & Hread & He).
  exists e. split; [exact Hread|]. split; [exact He|].
  split; [apply update_read_failed; exact Hread|].
  split; [unfold read_report; destruct e; reflexivity|].
  assert (Hf : is_file (fs w) p = true) by (unfold is_file; rewrite Hl; reflexivity).
  simpl. unfold bind at 1.
  rewrite (visit_file old_str new_str p c w Hf).
  rewrite (update_read_failed old_str new_str p
             (mk_world (fs w) (trace w ++ [EvPrint Stdout (MsgChecking p)]))
             e Hread).
  simpl. rewrite <- app_assoc. reflexivity.
Qed.

Lemma undecodable_file_skipped_witness :
  exists e,
    read_outcome (fs Sample.start) Sample.b_bin = Raise e /\
    (rfault (mk_file (Undecodable ["255"%char; "254"%char]) None None) = None ->
     e = UnicodeDecodeError) /\
    update_file_content Sample.b_bin OLD_STRING NEW_STRING Sample.start =
      (Ok false,
       mk_world (fs Sample.start)
         (trace Sample.start ++ [EvRead Sample.b_bin;
                                 read_report Sample.b_bin e])) /\
    existsb is_write [EvRead Sample.b_bin; read_report Sample.b_bin e]
    = false /\
    scan OLD_STRING NEW_STRING (Sample.b_bin :: [Sample.a_txt])
         (mk_counters 1 1) Sample.start =
      scan OLD_STRING NEW_STRING [Sample.a_txt]
           (mk_counters (1 + 1) 1)
           (mk_world (fs Sample.start)
              (trace Sample.start ++
                 [EvPrint Stdout (MsgChecking Sample.b_bin);
                  EvRead Sample.b_bin; read_report Sample.b_bin e])).
Proof.
  apply (undecodable_file_skipped Sample.b_bin OLD_STRING NEW_STRING
           Sample.start
           (mk_file (Undecodable ["255"%char; "254"%char]) None None)
           ["255"%char; "254"%char] [Sample.a_txt] (mk_counters 1 1)).
  - reflexivity.
  - reflexivity.
Defined.

(** C4: if the configured root does not exist or is not a directory,
    [process_directory] prints the configuration error and returns at once:
    the file system is untouched, nothing is read or written, and no counter
    is printed. *)
Theorem missing_root_halts (root : path) (old_str new_str : text)
        (w : world) :
  is_dir (fs w) root = false ->
  exists evs,
    process_directory root old_str new_str w =
      (Ok tt, mk_world (fs w) (trace w ++ evs)) /\
    evs = [EvPrint Stderr (MsgTargetNotFound root)] /\
    existsb is_read evs = false /\
    existsb is_write evs = false /\
    existsb is_counter evs = false.
Proof.
  intros H. exists [EvPrint Stderr (MsgTargetNotFound root)].
  split; [apply process_directory_rejects; exact H|].
  repeat split; reflexivity.
Qed.

Lemma missing_root_halts_witness :
  exists evs,
    process_directory ["morse_master"%string] OLD_STRING NEW_STRING
                      Sample.start =
      (Ok tt, mk_world (fs Sample.start) (trace Sample.start ++ evs)) /\
    evs = [EvPrint Stderr (MsgTargetNotFound ["morse_master"%string])] /\
    existsb is_read evs = false /\
    existsb is_write evs = false /\
    existsb is_counter evs = false.
Proof.
  apply (missing_root_halts ["morse_master"%string] OLD_STRING NEW_STRING
           Sample.start).
  reflexivity.
Defined.

(** C5: no failure of a read, a decoding or a write leaves
    [update_file_content] as an exception: on every file system, with any
    faults, the call returns a boolean.  So [process_directory], started on a
    directory, goes through the whole traversal: it announces and reads every
    regular file the traversal yields, in order, and ends with the summary
    of the counters. *)
Theorem file_errors_never_abort (old_str new_str : text) :
  (forall p w, exists b w',
      update_file_content p old_str new_str w = (Ok b, w')) /\
  (forall root w,
      is_dir (fs w) root = true ->
      exists c w' evs,
        process_directory root old_str new_str w = (Ok tt, w') /\
        trace w' =
          trace w ++ [EvPrint Stdout (MsgStarting root)] ++ evs ++ summary c /\
        checked_paths evs = filter (is_file (fs w)) (rglob (fs w) root) /\
        read_paths evs = filter (is_file (fs w)) (rglob (fs w) root)).
Proof.
  split.
  - intros p w.
    destruct (update_total old_str new_str p w) as (b & w' & _ & H & _).
    exists b, w'. exact H.
  - intros root w Hdir.
    rewrite (process_directory_runs old_str new_str root w Hdir).
    destruct (scan_total old_str new_str (rglob (fs w) root)
                (mk_counters 0 0) (started root w))
      as (c & w1 & evs & Hrun & _ & Htrace & Hreads & Hchecked & _).
    rewrite Hrun. exists c, (mk_world (fs w1) (trace w1 ++ summary c)), evs.
    split; [reflexivity|]. simpl in *.
    split; [rewrite Htrace, <- !app_assoc; reflexivity|].
    split; assumption.
Qed.

Lemma file_errors_never_abort_witness :
  exists c w' evs,
    process_directory [TARGET_DIRECTORY] OLD_STRING NEW_STRING Sample.start
    = (Ok tt, w') /\
    trace w' =
      trace Sample.start ++ [EvPrint Stdout (MsgStarting [TARGET_DIRECTORY])]
      ++ evs ++ summary c /\
    checked_paths evs =
      filter (is_file (fs Sample.start))
             (rglob (fs Sample.start) [TARGET_DIRECTORY]) /\
    read_paths evs =
      filter (is_file (fs Sample.start))
             (rglob (fs Sample.start) [TARGET_DIRECTORY]).
Proof.
  apply (proj2 (file_errors_never_abort OLD_STRING NEW_STRING)
               [TARGET_DIRECTORY] Sample.start).
  reflexivity.
Defined.










(** A call that attempts no write leaves the file system as it was. *)
Lemma update_without_write (p : path) (old_str new_str : text) (w : world) :
  exists b w' evs,
    update_file_content p old_str new_str w = (Ok b, w') /\
    trace w' = trace w ++ evs /\
    (existsb is_write evs = false -> fs w' = fs w).
Proof.
  destruct (read_outcome (fs w) p) as [s|e] eqn:Hread.
  - destruct (str_in old_str s) eqn:Hin.
    + destruct (read_outcome_Ok _ _ _ Hread) as (f & Hl & Hr & Hd).
      destruct (wfault f) as [wf|] eqn:Hw.
      * eexists _, _, _.
        split; [apply (update_write_failed old_str new_str p w f s wf);
                assumption|].
        simpl. split; [reflexivity|discriminate].
      * eexists _, _, _.
        split; [apply (update_written old_str new_str p w f s); assumption|].
        simpl. split; [reflexivity|discriminate].
    + eexists _, _, _.
      split; [apply (update_absent old_str new_str p w s); assumption|].
      simpl. split; reflexivity.
  - eexists _, _, _.
    split; [apply (update_read_failed old_str new_str p w e); assumption|].
    simpl. split; reflexivity.
Qed.

(** C9: if reading or decoding the file fails, [update_file_content]
    attempts no write and the file system is exactly what it was before the
    call; in general the file system can differ after a call only if a write
    was attempted. *)
Theorem read_failure_leaves_disk (p : path) (old_str new_str : text)
        (w : world) :
  (forall e,
     read_outcome (fs w) p = Raise e ->
     exists evs,
       update_file_content p old_str new_str w =
         (Ok false, mk_world (fs w) (trace w ++ evs)) /\
       existsb is_write evs = false) /\
  (exists b w' evs,
     update_file_content p old_str new_str w = (Ok b, w') /\
     trace w' = trace w ++ evs /\
     (existsb is_write evs = false -> fs w' = fs w)).
Proof.
  split.
  - intros e Hread. exists [EvRead p; read_report p e].
    split; [apply update_read_failed; exact Hread|].
    unfold read_report. destruct e; reflexivity.
  - apply update_without_write.
Qed.

Lemma read_failure_leaves_disk_witness :
  exists evs,
    update_file_content Sample.secret OLD_STRING NEW_STRING Sample.start =
      (Ok false, mk_world (fs Sample.start) (trace Sample.start ++ evs)) /\
    existsb is_write evs = false.
Proof.
  apply (proj1 (read_failure_leaves_disk Sample.secret OLD_STRING NEW_STRING
                  Sample.start) OSError).
  reflexivity.
Defined.




(* ===================================================================== *)
(** ** Further facts about one call                                      *)
(* ===================================================================== *)

Section CallFacts.

Variables old_str new_str : text.

(** The four ways a call can go. *)
Lemma update_cases (p : path) (w : world) :
  (exists e,
     read_outcome (fs w) p = Raise e /\
     update_file_content p old_str new_str w =
       (Ok false, mk_world (fs w) (trace w ++ [EvRead p; read_report p e])))
  \/
  (exists s,
     read_outcome (fs w) p = Ok s /\ str_in old_str s = false /\
     update_file_content p old_str new_str w =
       (Ok false, mk_world (fs w) (trace w ++ [EvRead p])))
  \/
  (exists f s wf,
     lookup (fs w) p = Some (File f) /\ rfault f = None /\
     data f = Decoded s /\ str_in old_str s = true /\ wfault f = Some wf /\
     update_file_content p old_str new_str w =
       (Ok false,
        mk_world
          (match wleft wf with
           | Some d => store (fs w) p (mk_file d None (Some wf))
           | None => fs w
           end)
          (trace w ++ [EvRead p; EvPrint Stdout (MsgUpdating p);
                       EvWrite p (str_replace old_str new_str s);
                       write_report p (wexn wf)])))
  \/
  (exists f s,
     lookup (fs w) p = Some (File f) /\ rfault f = None /\
     data f = Decoded s /\ str_in old_str s = true /\ wfault f = None /\
     update_file_content p old_str new_str w =
       (Ok true,
        mk_world
          (store (fs w) p
             (mk_file (Decoded (str_replace old_str new_str s)) None None))
          (trace w ++ [EvRead p; EvPrint Stdout (MsgUpdating p);
                       EvWrite p (str_replace old_str new_str s)]))).
Proof.
  destruct (read_outcome (fs w) p) as [s|e] eqn:Hread.
  - destruct (str_in old_str s) eqn:Hin.
    + destruct (read_outcome_Ok _ _ _ Hread) as (f & Hl & Hr & Hd).
      destruct (wfault f) as [wf|] eqn:Hw.
      * right; right; left. exists f, s, wf. repeat (split; [assumption|]).
        apply (update_write_failed old_str new_str p w f s wf); assumption.
      * right; right; right. exists f, s. repeat (split; [assumption|]).
        apply (update_written old_str new_str p w f s); assumption.
    + right; left. exists s. split; [reflexivity|]. split; [exact Hin|].
      apply (update_absent old_str new_str p w s); assumption.
  - left. exists e. split; [reflexivity|].
    apply update_read_failed. exact Hread.
Qed.

Lemma read_failed_file (t : node) (p : path) (e : exn) :
  read_outcome t p = Raise e ->
  matches_at old_str t p = false /\
  option_map (after_update old_str new_str) (file_at t p) = file_at t p.
Proof.
  unfold read_outcome, matches_at, matches, after_update, file_at.
  destruct (lookup t p) as [[f|es|]|]; simpl;
    try (intros _; split; reflexivity).
  destruct (rfault f); [intros _; split; reflexivity|].
  destruct (data f); [discriminate|]. intros _. split; reflexivity.
Qed.

Lemma read_absent_file (t : node) (p : path) (s : text) :
  read_outcome t p = Ok s -> str_in old_str s = false ->
  matches_at old_str t p = false /\
  option_map (after_update old_str new_str) (file_at t p) = file_at t p.
Proof.
  intros Hread Habs.
  destruct (read_outcome_Ok _ _ _ Hread) as (f & Hl & Hr & Hd).
  unfold matches_at, matches, after_update, file_at.
  rewrite Hl. simpl. rewrite Hr, Hd, Habs. split; reflexivity.
Qed.

(** What one call does to the files, and what it leaves in the trace. *)
Lemma update_effect (p : path) (w : world) :
  exists w' evs,
    update_file_content p old_str new_str w
      = (Ok (updatable_at old_str (fs w) p), w') /\
    trace w' = trace w ++ evs /\
    (forall q, q <> p -> file_at (fs w') q = file_at (fs w) q) /\
    file_at (fs w') p
      = option_map (after_update old_str new_str) (file_at (fs w) p) /\
    write_paths evs = (if matches_at old_str (fs w) p then [p] else []) /\
    length (filter is_updating evs) = length (write_paths evs) /\
    length (filter is_write_report evs) + (if updatable_at old_str (fs w) p
                                           then 1 else 0)
      = length (write_paths evs).
Proof.
  destruct (update_cases p w)
    as [(e & Hread & Hrun)
       |[(s & Hread & Habs & Hrun)
        |[(f & s & wf & Hl & Hr & Hd & Hin & Hw & Hrun)
         |(f & s & Hl & Hr & Hd & Hin & Hw & Hrun)]]].
  - destruct (read_failed_file _ _ _ Hread) as [Hm Ha].
    assert (Hu : updatable_at old_str (fs w) p = false).
    { unfold updatable_at, updatable. unfold matches_at in Hm.
      destruct (file_at (fs w) p); [rewrite Hm|]; reflexivity. }
    rewrite Hu, Hm, Ha. unfold read_report in Hrun.
    destruct e; simpl in Hrun;
      (eexists _, _; split; [exact Hrun|]; simpl; repeat split; reflexivity).
  - destruct (read_absent_file _ _ _ Hread Habs) as [Hm Ha].
    assert (Hu : updatable_at old_str (fs w) p = false).
    { unfold updatable_at, updatable. unfold matches_at in Hm.
      destruct (file_at (fs w) p); [rewrite Hm|]; reflexivity. }
    rewrite Hu, Hm, Ha. eexists _, _. split; [exact Hrun|].
    simpl. repeat split.
  - pose proof (file_at_lookup _ _ _ Hl) as Hat.
    assert (Hm : matches_at old_str (fs w) p = true).
    { unfold matches_at, matches. rewrite Hat, Hr, Hd. exact Hin. }
    assert (Hu : updatable_at old_str (fs w) p = false).
    { unfold updatable_at, updatable, matches. rewrite Hat, Hr, Hd, Hin, Hw.
      reflexivity. }
    rewrite Hu, Hm. eexists _, _. split; [exact Hrun|].
    simpl. split; [reflexivity|].
    split; [|split; [|split; [|split]]].
    + intros q Hq. destruct (wleft wf); [|reflexivity].
      apply file_at_store_other. exact Hq.
    + rewrite Hat. simpl. unfold after_update. rewrite Hr, Hd, Hin, Hw.
      destruct (wleft wf); [|exact Hat].
      apply (file_at_store_same _ _ f). exact Hat.
    + unfold write_report. destruct (wexn wf); reflexivity.
    + unfold write_report. destruct (wexn wf); reflexivity.
    + unfold write_report. destruct (wexn wf); reflexivity.
  - pose proof (file_at_lookup _ _ _ Hl) as Hat.
    assert (Hm : matches_at old_str (fs w) p = true).
    { unfold matches_at, matches. rewrite Hat, Hr, Hd. exact Hin. }
    assert (Hu : updatable_at old_str (fs w) p = true).
    { unfold updatable_at, updatable, matches. rewrite Hat, Hr, Hd, Hin, Hw.
      reflexivity. }
    rewrite Hu, Hm. eexists _, _. split; [exact Hrun|].
    simpl. split; [reflexivity|].
    split; [|split; [|repeat split]].
    + intros q Hq. apply file_at_store_other. exact Hq.
    + rewrite Hat. simpl. unfold after_update. rewrite Hr, Hd, Hin, Hw.
      apply (file_at_store_same _ _ f). exact Hat.
Qed.

End CallFacts.

(* ===================================================================== *)
(** ** Further facts about the loop                                      *)
(* ===================================================================== *)

Section LoopFacts.

Variables old_str new_str : text.

Lemma is_file_file_at (t : node) (p : path) :
  is_file t p = match file_at t p with Some _ => true | None => false end.
Proof.
  unfold is_file, file_at. destruct (lookup t p) as [[f|es|]|]; reflexivity.
Qed.

Lemma visit_effect (p : path) (c : counters) (w : world) :
  exists c' w' evs,
    visit old_str new_str p c w = (Ok c', w') /\
    trace w' = trace w ++ evs /\
    (forall q, q <> p -> file_at (fs w') q = file_at (fs w) q) /\
    file_at (fs w') p
      = option_map (after_update old_str new_str) (file_at (fs w) p) /\
    files_updated c' =
      files_updated c + (if updatable_at old_str (fs w) p then 1 else 0) /\
    write_paths evs = (if matches_at old_str (fs w) p then [p] else []) /\
    length (filter is_updating evs) = length (write_paths evs) /\
    length (filter is_write_report evs) + files_updated c'
      = files_updated c + length (write_paths evs).
Proof.
  destruct (is_file (fs w) p) eqn:Hf.
  - rewrite (visit_file old_str new_str p c w Hf).
    destruct (update_effect old_str new_str p
                (mk_world (fs w) (trace w ++ [EvPrint Stdout (MsgChecking p)])))
      as (w' & evs & Hrun & Htrace & Hother & Hself & Hwrites & Hupd & Hrep).
    simpl in *. rewrite Hrun.
    exists (mk_counters (files_processed c + 1)
              (files_updated c + (if updatable_at old_str (fs w) p
                                  then 1 else 0))),
           w', (EvPrint Stdout (MsgChecking p) :: evs).
    split.
    { destruct (updatable_at old_str (fs w) p); simpl;
        rewrite ?Nat.add_0_r; reflexivity. }
    split; [rewrite Htrace, <- app_assoc; reflexivity|].
    split; [exact Hother|]. split; [exact Hself|].
    split; [reflexivity|].
    unfold write_paths in *. simpl.
    split; [exact Hwrites|]. split; [exact Hupd|].
    destruct (updatable_at old_str (fs w) p); lia.
  - rewrite (visit_skip old_str new_str p c w Hf).
    rewrite is_file_file_at in Hf.
    unfold updatable_at, matches_at.
    destruct (file_at (fs w) p) eqn:Hat; [discriminate|].
    exists c, w, []. simpl. rewrite app_nil_r, Hat.
    repeat split; lia.
Qed.



(** Without any assumption on the paths: the lines and the counter account
    for the write attempts, and a path the loop did not go through keeps its
    file. *)
Lemma scan_accounting (items : list path) :
  forall (c : counters) (w : world),
  exists c' w' evs,
    scan old_str new_str items c w = (Ok c', w') /\
    trace w' = trace w ++ evs /\
    (forall q, ~ In q items -> file_at (fs w') q = file_at (fs w) q) /\
    (forall q, In q (write_paths evs) -> In q items) /\
    length (filter is_updating evs) = length (write_paths evs) /\
    length (filter is_write_report evs) + files_updated c'
      = files_updated c + length (write_paths evs).
Proof.
  induction items as [|p items IH]; intros c w.
  - exists c, w, []. simpl. rewrite app_nil_r.
    repeat split; try lia; try (intros q []).
  - destruct (visit_effect p c w)
      as (c1 & w1 & evs1 & Hrun1 & Htrace1 & Hother1 & _ & _
          & Hwrites1 & Hlines1 & Hrep1).
    destruct (IH c1 w1)
      as (c2 & w2 & evs2 & Hrun2 & Htrace2 & Hout2 & Hin2 & Hlines2 & Hrep2).
    exists c2, w2, (evs1 ++ evs2).
    split; [simpl; unfold bind; rewrite Hrun1; exact Hrun2|].
    split; [rewrite Htrace2, Htrace1, <- app_assoc; reflexivity|].
    split.
    { intros q Hq. rewrite Hout2.
      - apply Hother1. intros ->. apply Hq. left. reflexivity.
      - intros Hin. apply Hq. right. exact Hin. }
    assert (Hw : write_paths (evs1 ++ evs2)
                 = write_paths evs1 ++ write_paths evs2).
    { unfold write_paths. apply flat_map_app. }
    rewrite Hw, !filter_app, !length_app.
    split.
    { intros q Hq. apply in_app_or in Hq. destruct Hq as [Hq|Hq].
      - rewrite Hwrites1 in Hq.
        destruct (matches_at old_str (fs w) p); [|contradiction].
        destruct Hq as [<-|[]]. left. reflexivity.
      - right. apply Hin2. exact Hq. }
    lia.
Qed.

End LoopFacts.

(* ===================================================================== *)
(** ** Further facts about the traversal                                 *)
(* ===================================================================== *)




(* ===================================================================== *)
(** ** Further properties of one call                                    *)
(* ===================================================================== *)

(** X1: when the old substring occurs but [write_text] raises, the call
    returns [False] after printing one line on stderr (the "could not write"
    line for an [OSError], the "unexpected error" line for anything else);
    the file holds what the failed write left of it, every other file is as
    before, and the loop goes on with the next path having counted the file
    as checked but not as updated. *)
Theorem write_failure_reported (p : path) (old_str new_str : text)
        (w : world) (f : file) (s : text) (wf : wfailure)
        (rest : list path) (c : counters) :
  lookup (fs w) p = Some (File f) ->
  rfault f = None ->
  data f = Decoded s ->
  str_in old_str s = true ->
  wfault f = Some wf ->
  let report :=
    EvPrint Stderr (if isinstance (wexn wf) COSError
                    then MsgWriteError p (wexn wf)
                    else MsgWriteUnexpected p (wexn wf)) in
  let attempt :=
    [EvRead p; EvPrint Stdout (MsgUpdating p);
     EvWrite p (str_replace old_str new_str s); report] in
  exists t',
    update_file_content p old_str new_str w
      = (Ok false, mk_world t' (trace w ++ attempt)) /\
    content_at t' p
      = Some (match wleft wf with Some d => d | None => Decoded s end) /\
    (forall q, q <> p -> file_at t' q = file_at (fs w) q) /\
    scan old_str new_str (p :: rest) c w =
      scan old_str new_str rest
           (mk_counters (files_processed c + 1) (files_updated c))
           (mk_world t'
              (trace w ++ EvPrint Stdout (MsgChecking p) :: attempt)).
Proof.
  intros Hl Hr Hd Hin Hw report attempt.
  pose proof (file_at_lookup _ _ _ Hl) as Hat.
  assert (Hrep : write_report p (wexn wf) = report).
  { unfold write_report, report. destruct (isinstance (wexn wf) COSError);
      reflexivity. }
  exists (match wleft wf with
          | Some d => store (fs w) p (mk_file d None (Some wf))
          | None => fs w
          end).
  split.
  { rewrite (update_write_failed old_str new_str p w f s wf Hl Hr Hd Hin Hw).
    unfold attempt. rewrite Hrep. reflexivity. }
  split.
  { unfold content_at. destruct (wleft wf) as [d|].
    - rewrite (file_at_store_same (fs w) p f _ Hat). reflexivity.
    - rewrite Hat. simpl. rewrite Hd. reflexivity. }
  split.
  { intros q Hq. destruct (wleft wf); [|reflexivity].
    apply file_at_store_other. exact Hq. }
  assert (Hf : is_file (fs w) p = true)
    by (unfold is_file; rewrite Hl; reflexivity).
  simpl. unfold bind at 1.
  rewrite (visit_file old_str new_str p c w Hf).
  rewrite (update_write_failed old_str new_str p
             (mk_world (fs w) (trace w ++ [EvPrint Stdout (MsgChecking p)]))
             f s wf Hl Hr Hd Hin Hw).
  simpl. unfold attempt. rewrite Hrep, <- app_assoc. reflexivity.
Qed.

Lemma write_failure_reported_witness :
  exists t',
    update_file_content Sample.locked_txt OLD_STRING NEW_STRING Sample.start
      = (Ok false,
         mk_world t'
           [EvRead Sample.locked_txt;
            EvPrint Stdout (MsgUpdating Sample.locked_txt);
            EvWrite Sample.locked_txt NEW_STRING;
            EvPrint Stderr (MsgWriteError Sample.locked_txt OSError)]) /\
    content_at t' Sample.locked_txt = Some (Decoded OLD_STRING).
Proof.
  destruct (write_failure_reported Sample.locked_txt OLD_STRING NEW_STRING
              Sample.start
              (mk_file (Decoded OLD_STRING) None
                       (Some (mk_wfailure OSError None)))
              OLD_STRING (mk_wfailure OSError None) [] (mk_counters 0 0)
              eq_refl eq_refl eq_refl eq_refl eq_refl)
    as (t' & Hrun & Hcontent & _).
  exists t'. split; [exact Hrun|exact Hcontent].
Defined.



(** X3: a call prints at most one line on stderr; a call that attempts a
    write never prints one of the read-failure lines (the handlers around
    the write catch every exception of the write); and a call that prints a
    read-failure or a write-failure line returns [False]. *)
Theorem one_report_per_call (p : path) (old_str new_str : text) (w : world) :
  exists b w' evs,
    update_file_content p old_str new_str w = (Ok b, w') /\
    trace w' = trace w ++ evs /\
    length (filter is_stderr evs) <= 1 /\
    (existsb is_write evs = true -> existsb is_read_report evs = false) /\
    (existsb is_read_report evs = true \/ existsb is_write_report evs = true
     -> b = false) /\
    (b = true -> existsb is_stderr evs = false).
Proof.
  destruct (update_cases old_str new_str p w)
    as [(e & _ & H)|[(s & _ & _ & H)
       |[(f & s & wf & _ & _ & _ & _ & _ & H)
        |(f & s & _ & _ & _ & _ & _ & H)]]];
    rewrite H; eexists _, _, _; (split; [reflexivity|]); simpl;
    (split; [reflexivity|]).
  - unfold read_report. destruct e; simpl; repeat split; auto; discriminate.
  - simpl. repeat split; auto; discriminate.
  - unfold write_report. destruct (wexn wf); simpl; repeat split; auto;
      discriminate.
  - simpl. repeat split; auto. intros [H1|H1]; discriminate.
Qed.



(* ===================================================================== *)
(** ** Further facts about a whole run                                   *)
(* ===================================================================== *)

Section RunFacts.

Variables old_str new_str : text.



(** A run on a directory, seen through its loop. *)
Lemma process_directory_loop (root : path) (w : world) (c : counters)
      (w1 : world) (evs : list event) :
  is_dir (fs w) root = true ->
  scan old_str new_str (rglob (fs w) root) (mk_counters 0 0) (started root w)
    = (Ok c, w1) ->
  trace w1 = trace (started root w) ++ evs ->
  process_directory root old_str new_str w
    = (Ok tt,
       mk_world (fs w1)
         (trace w ++ [EvPrint Stdout (MsgStarting root)] ++ evs ++ summary c)).
Proof.
  intros Hdir Hrun Htrace.
  rewrite (process_directory_runs old_str new_str root w Hdir), Hrun, Htrace.
  simpl. rewrite <- !app_assoc. reflexivity.
Qed.


(** The loop is quiet where nothing matches. *)
Lemma scan_quiet (items : list path) :
  forall (c : counters) (w : world),
  (forall q s, In q items -> read_outcome (fs w) q = Ok s ->
               str_in old_str s = false) ->
  exists c' w' evs,
    scan old_str new_str items c w = (Ok c', w') /\
    trace w' = trace w ++ evs /\
    fs w' = fs w /\
    write_paths evs = [] /\
    files_updated c' = files_updated c.
Proof.
  induction items as [|p items IH]; intros c w Hfree.
  - exists c, w, []. simpl. rewrite app_nil_r. repeat split.
  - assert (Hvisit : exists c1 w1 evs1,
              visit old_str new_str p c w = (Ok c1, w1) /\
              trace w1 = trace w ++ evs1 /\ fs w1 = fs w /\
              write_paths evs1 = [] /\ files_updated c1 = files_updated c).
    { destruct (is_file (fs w) p) eqn:Hf.
      - rewrite (visit_file old_str new_str p c w Hf).
        destruct (update_cases old_str new_str p
                    (mk_world (fs w)
                       (trace w ++ [EvPrint Stdout (MsgChecking p)])))
          as [(e & _ & H)|[(s & _ & _ & H)
             |[(f & s & wf & Hl & Hr & Hd & Hin & _ & _)
              |(f & s & Hl & Hr & Hd & Hin & _ & _)]]]; simpl in *.
        + rewrite H. eexists _, _, _. split; [reflexivity|]. simpl.
          rewrite <- app_assoc. repeat split.
          unfold read_report. destruct e; reflexivity.
        + rewrite H. eexists _, _, _. split; [reflexivity|]. simpl.
          rewrite <- app_assoc. repeat split.
        + rewrite (Hfree p s (or_introl eq_refl)
                     (read_outcome_Decoded _ _ f s Hl Hr Hd)) in Hin.
          discriminate.
        + rewrite (Hfree p s (or_introl eq_refl)
                     (read_outcome_Decoded _ _ f s Hl Hr Hd)) in Hin.
          discriminate.
      - rewrite (visit_skip old_str new_str p c w Hf).
        exists c, w, []. rewrite app_nil_r. repeat split. }
    destruct Hvisit as (c1 & w1 & evs1 & Hrun1 & Htrace1 & Hfs1 & Hw1 & Hu1).
    destruct (IH c1 w1) as (c2 & w2 & evs2 & Hrun2 & Htrace2 & Hfs2 & Hw2 & Hu2).
    { intros q s Hq. rewrite Hfs1. apply Hfree. right. exact Hq. }
    exists c2, w2, (evs1 ++ evs2).
    split; [simpl; unfold bind; rewrite Hrun1; exact Hrun2|].
    split; [rewrite Htrace2, Htrace1, <- app_assoc; reflexivity|].
    split; [congruence|].
    split; [|congruence].
    unfold write_paths in *. rewrite flat_map_app, Hw1, Hw2. reflexivity.
Qed.

Lemma run_quiet (root : path) (w : world) :
  is_dir (fs w) root = true ->
  (forall q s, In q (rglob (fs w) root) -> read_outcome (fs w) q = Ok s ->
               str_in old_str s = false) ->
  exists c w' evs,
    process_directory root old_str new_str w = (Ok tt, w') /\
    trace w' =
      trace w ++ [EvPrint Stdout (MsgStarting root)] ++ evs ++ summary c /\
    fs w' = fs w /\
    write_paths evs = [] /\
    files_updated c = 0.
Proof.
  intros Hdir Hfree.
  destruct (scan_quiet (rglob (fs w) root) (mk_counters 0 0) (started root w)
              Hfree)
    as (c & w1 & evs & Hrun & Htrace & Hfs & Hwrites & Hupd).
  exists c, (mk_world (fs w1)
               (trace w ++ [EvPrint Stdout (MsgStarting root)] ++ evs
                ++ summary c)), evs.
  split; [apply process_directory_loop; assumption|].
  simpl in *. repeat split; assumption.
Qed.

End RunFacts.

(* ===================================================================== *)
(** ** Further properties of a whole run                                 *)
(* ===================================================================== *)


Lemma matches_read (old_str : text) (t : node) (q : path) (s : text) :
  read_outcome t q = Ok s -> matches_at old_str t q = str_in old_str s.
Proof.
  intros H. destruct (read_outcome_Ok _ _ _ H) as (f & Hl & Hr & Hd).
  unfold matches_at, matches. rewrite (file_at_lookup _ _ _ Hl), Hr, Hd.
  reflexivity.
Qed.

Lemma unmatched_paths (old_str : text) (t : node) (items : list path) :
  forallb (fun q => negb (matches_at old_str t q)) items = true ->
  forall q s, In q items -> read_outcome t q = Ok s ->
              str_in old_str s = false.
Proof.
  intros H q s Hq Hread. rewrite forallb_forall in H.
  specialize (H q Hq). apply negb_true_iff in H.
  rewrite (matches_read old_str t q s Hread) in H. exact H.
Qed.







(** X7: the summary agrees with the lines printed during the run: the
    number of files checked is the number of "Checking" lines, every
    "Updating" line stands for one write attempt, and the number of files
    updated is the number of "Updating" lines less the number of write
    failure lines. *)
Theorem summary_agrees_with_lines (root : path) (old_str new_str : text)
        (w : world) :
  is_dir (fs w) root = true ->
  exists c w' evs,
    process_directory root old_str new_str w = (Ok tt, w') /\
    trace w' =
      trace w ++ [EvPrint Stdout (MsgStarting root)] ++ evs ++ summary c /\
    files_processed c = length (checked_paths evs) /\
    length (filter is_updating evs) = length (write_paths evs) /\
    files_updated c + length (filter is_write_report evs)
      = length (filter is_updating evs).
Proof.
  intros Hdir.
  destruct (scan_accounting old_str new_str (rglob (fs w) root)
              (mk_counters 0 0) (started root w))
    as (c & w1 & evs & Hrun & Htrace & _ & _ & Hlines & Hrep).
  destruct (scan_total old_str new_str (rglob (fs w) root)
              (mk_counters 0 0) (started root w))
    as (c' & w1' & evs' & Hrun' & _ & Htrace' & _ & Hchecked & _ & Hproc & _).
  rewrite Hrun in Hrun'. injection Hrun' as <- <-.
  rewrite Htrace in Htrace'. apply app_inv_head in Htrace'. subst evs'.
  exists c, (mk_world (fs w1)
               (trace w ++ [EvPrint Stdout (MsgStarting root)] ++ evs
                ++ summary c)), evs.
  split; [apply process_directory_loop; assumption|].
  simpl in *. split; [reflexivity|].
  split; [rewrite Hproc, Hchecked; reflexivity|].
  split; [exact Hlines|]. lia.
Qed.

Lemma summary_agrees_with_lines_witness :
  exists c w' evs,
    main Sample.start = (Ok tt, w') /\
    trace w' =
      trace Sample.start ++ [EvPrint Stdout (MsgStarting [TARGET_DIRECTORY])]
      ++ evs ++ summary c /\
    files_processed c = length (checked_paths evs) /\
    length (filter is_updating evs) = length (write_paths evs) /\
    files_updated c + length (filter is_write_report evs)
      = length (filter is_updating evs).
Proof.
  apply (summary_agrees_with_lines [TARGET_DIRECTORY] OLD_STRING NEW_STRING
           Sample.start).
  reflexivity.
Defined.



(** X9: if none of the files the traversal yields can be read and decoded
    to a content that holds the old substring, a run on a directory attempts
    no write, leaves the file system exactly as it was, and reports zero
    files updated. *)
Theorem run_without_match_is_idle (root : path) (old_str new_str : text)
        (w : world) :
  is_dir (fs w) root = true ->
  forallb (fun q => negb (matches_at old_str (fs w) q)) (rglob (fs w) root)
    = true ->
  exists c w' evs,
    process_directory root old_str new_str w = (Ok tt, w') /\
    trace w' =
      trace w ++ [EvPrint Stdout (MsgStarting root)] ++ evs ++ summary c /\
    fs w' = fs w /\
    write_paths evs = [] /\
    files_updated c = 0.
Proof.
  intros Hdir Hfree.
  apply (run_quiet old_str new_str root w Hdir).
  apply unmatched_paths. exact Hfree.
Qed.

Lemma run_without_match_is_idle_witness :
  exists c w' evs,
    process_directory [TARGET_DIRECTORY] (of_string "dit_dah") NEW_STRING
                      Sample.start = (Ok tt, w') /\
    trace w' =
      trace Sample.start ++ [EvPrint Stdout (MsgStarting [TARGET_DIRECTORY])]
      ++ evs ++ summary c /\
    fs w' = fs Sample.start /\
    write_paths evs = [] /\
    files_updated c = 0.
Proof.
  apply (run_without_match_is_idle [TARGET_DIRECTORY] (of_string "dit_dah")
           NEW_STRING Sample.start); reflexivity.
Defined.



